(** * Bloom filter of src/main.js

    A shallow embedding of the class [BloomFilter] (constructor, [_hash],
    [add], [contains]) of src/main.js.

    Modelling choices:
    - JS numbers that arise here are integers, written as [Z]; the only
      non-integer number the code can produce is the [NaN] of [hash % 0],
      kept as [JNaN] in [jsnum].
    - A JS string is the sequence of UTF-16 code units read by
      [charCodeAt], i.e. a [list Z].
    - The array [bitArray] is a JS object: its integer-keyed properties are
      a [gmap Z Z]; the property written by [bitArray[NaN] = 1] (key "NaN")
      is kept apart in [nan_prop].  A missing key reads as [undefined],
      which is [None].
    - Methods are state-passing functions on the object [this].
    - The [console.log] of [_hash] is output only and is not modelled. *)

From stdpp Require Import base gmap list.
From Stdlib Require Import ZArith Lia.
Open Scope Z_scope.

(** ** JS integer semantics *)

(** ToInt32: wrap to the signed 32-bit range. *)
Definition wrap32 (z : Z) : Z := (z + 2 ^ 31) mod 2 ^ 32 - 2 ^ 31.

(** [a << n] : ToInt32(a) shifted left, result read back as int32. *)
Definition js_shl (a n : Z) : Z := wrap32 (Z.shiftl (wrap32 a) (n mod 32)).

(** [a & b] on int32 operands. *)
Definition js_and (a b : Z) : Z := Z.land (wrap32 a) (wrap32 b).

(** [a ^ b] on int32 operands. *)
Definition js_xor (a b : Z) : Z := Z.lxor (wrap32 a) (wrap32 b).

(** A JS number as produced by [%] and [Math.abs] here. *)
Inductive jsnum := JInt (z : Z) | JNaN.

(** [a % b] for integer operands: truncated remainder, [NaN] when [b = 0]. *)
Definition js_rem (a b : Z) : jsnum := if decide (b = 0) then JNaN else JInt (Z.rem a b).

Definition js_abs (x : jsnum) : jsnum :=
  match x with JInt z => JInt (Z.abs z) | JNaN => JNaN end.

(** ** The array object [bitArray] *)

Record JsArray := mkJsArray { elems : gmap Z Z; nan_prop : option Z }.

(** [a[i]] *)
Definition arr_get (a : JsArray) (i : jsnum) : option Z :=
  match i with JInt k => elems a !! k | JNaN => nan_prop a end.

(** [a[i] = v] *)
Definition arr_set (a : JsArray) (i : jsnum) (v : Z) : JsArray :=
  match i with
  | JInt k => mkJsArray (<[k := v]> (elems a)) (nan_prop a)
  | JNaN => mkJsArray (elems a) (Some v)
  end.

(** [new Array(n).fill(0)] elements for keys [0 .. n-1]. *)
Fixpoint fill0 (n : nat) : gmap Z Z :=
  match n with
  | O => ∅
  | S n' => <[Z.of_nat n' := 0]> (fill0 n')
  end.

(** ** The class *)

Record BloomFilter := mkBloomFilter {
  size : Z;
  numHashes : Z;
  bitArray : JsArray
}.

Inductive js_error := RangeError.

Inductive result (A : Type) := Ok (a : A) | Throw (e : js_error).
Arguments Ok {A} a.
Arguments Throw {A} e.

(** [constructor(size, numHashes)]: [new Array(size)] throws a RangeError
    unless [size] is a valid array length (an integer in [0, 2^32 - 1]). *)
Definition construct (size numHashes : Z) : result BloomFilter :=
  if decide (0 <= size <= 2 ^ 32 - 1) then
    Ok (mkBloomFilter size numHashes (mkJsArray (fill0 (Z.to_nat size)) None))
  else Throw RangeError.

(** One iteration of the loop of [_hash]:
    [hash = (hash << 5) - hash + char; hash = hash & hash]. *)
Definition hash_step (hash char : Z) : Z :=
  let hash := js_shl hash 5 - hash + char in
  js_and hash hash.

Fixpoint hash_loop (hash : Z) (item : list Z) : Z :=
  match item with
  | [] => hash
  | char :: rest => hash_loop (hash_step hash char) rest
  end.

(** [_hash(item, seed)] *)
Definition _hash (this : BloomFilter) (item : list Z) (seed : Z) : jsnum :=
  let hash := hash_loop 0 item in
  let hash := js_xor hash seed in
  js_abs (js_rem hash (size this)).

(** The seeds [i = 0, 1, ...] while [i < numHashes]. *)
Definition seeds (numHashes : Z) : list Z := map Z.of_nat (seq 0 (Z.to_nat numHashes)).

Fixpoint add_loop (this : BloomFilter) (item : list Z) (is : list Z) : BloomFilter :=
  match is with
  | [] => this
  | i :: rest =>
      let index := _hash this item i in
      add_loop (mkBloomFilter (size this) (numHashes this)
                  (arr_set (bitArray this) index 1)) item rest
  end.

(** [add(item)] *)
Definition add (item : list Z) (this : BloomFilter) : unit * BloomFilter :=
  (tt, add_loop this item (seeds (numHashes this))).

Fixpoint contains_loop (this : BloomFilter) (item : list Z) (is : list Z) : bool :=
  match is with
  | [] => true
  | i :: rest =>
      let index := _hash this item i in
      if decide (arr_get (bitArray this) index = Some 0) then false
      else contains_loop this item rest
  end.

(** [contains(item)] *)
Definition contains (item : list Z) (this : BloomFilter) : bool * BloomFilter :=
  (contains_loop this item (seeds (numHashes this)), this).

(** A sequence of method calls on one filter. *)
Inductive call := Add (item : list Z) | Contains (item : list Z).

Definition step (c : call) (this : BloomFilter) : BloomFilter :=
  match c with
  | Add item => snd (add item this)
  | Contains item => snd (contains item this)
  end.

Fixpoint exec (cs : list call) (this : BloomFilter) : BloomFilter :=
  match cs with
  | [] => this
  | c :: rest => exec rest (step c this)
  end.

(** The items passed to [add] in a sequence of calls. *)
Fixpoint added (cs : list call) : list (list Z) :=
  match cs with
  | [] => []
  | Add x :: rest => x :: added rest
  | Contains _ :: rest => added rest
  end.

(** The reference update of the running hash: [hash * 31 + code] wrapped
    to 32-bit signed at every step. *)
Definition ref_step (hash code : Z) : Z := wrap32 (hash * 31 + code).

Fixpoint ref_loop (hash : Z) (item : list Z) : Z :=
  match item with
  | [] => hash
  | c :: rest => ref_loop (ref_step hash c) rest
  end.

(** "apple" as UTF-16 code units. *)
Definition apple : list Z := [97; 112; 112; 108; 101].

Definition bf1 : BloomFilter :=
  match construct 100 3 with Ok f => f | Throw _ => mkBloomFilter 0 0 (mkJsArray ∅ None) end.

Example test_apple : fst (contains apple (snd (add apple bf1))) = true.
Proof. vm_compute. reflexivity. Qed.

Example test_fresh : fst (contains apple bf1) = false.
Proof. vm_compute. reflexivity. Qed.

Example test_apple_hash : hash_loop 0 apple = 93029210.
Proof. vm_compute. reflexivity. Qed.

#[global] Instance jsnum_eq_dec : EqDecision jsnum.
Proof. solve_decision. Defined.

(** ** 32-bit wrap-around *)

Lemma wrap32_shift (z : Z) : exists k, wrap32 z = z + k * 2 ^ 32.
Proof.
  unfold wrap32. exists (- ((z + 2 ^ 31) / 2 ^ 32)).
  pose proof (Z_div_mod_eq_full (z + 2 ^ 31) (2 ^ 32)). lia.
Qed.

Lemma wrap32_add_mult (z k : Z) : wrap32 (z + k * 2 ^ 32) = wrap32 z.
Proof.
  unfold wrap32. f_equal.
  replace (z + k * 2 ^ 32 + 2 ^ 31) with (z + 2 ^ 31 + k * 2 ^ 32) by lia.
  apply Z_mod_plus_full.
Qed.

Lemma wrap32_range (z : Z) : - 2 ^ 31 <= wrap32 z < 2 ^ 31.
Proof.
  unfold wrap32. pose proof (Z.mod_pos_bound (z + 2 ^ 31) (2 ^ 32)). lia.
Qed.

Lemma js_and_diag (a : Z) : js_and a a = wrap32 a.
Proof. unfold js_and. apply Z.land_diag. Qed.

Lemma hash_step_ref_step (hash char : Z) : hash_step hash char = ref_step hash char.
Proof.
  unfold hash_step, ref_step. rewrite js_and_diag. unfold js_shl.
  change (5 mod 32) with 5. rewrite Z.shiftl_mul_pow2 by lia.
  destruct (wrap32_shift hash) as [k1 ->].
  destruct (wrap32_shift ((hash + k1 * 2 ^ 32) * 2 ^ 5)) as [k2 ->].
  replace ((hash + k1 * 2 ^ 32) * 2 ^ 5 + k2 * 2 ^ 32 - hash + char)
    with (hash * 31 + char + (k1 * 32 + k2) * 2 ^ 32) by lia.
  apply wrap32_add_mult.
Qed.

(** ** The array object *)

Lemma arr_get_set (a : JsArray) (i j : jsnum) (v : Z) :
  arr_get (arr_set a i v) j = if decide (i = j) then Some v else arr_get a j.
Proof.
  destruct (decide (i = j)) as [<-|Hne].
  - destruct i as [k|]; simpl; [apply lookup_insert_eq | reflexivity].
  - destruct i as [k|], j as [l|]; simpl; try reflexivity; try congruence.
    rewrite lookup_insert_ne; congruence.
Qed.

Lemma arr_ext (a b : JsArray) : (forall i, arr_get a i = arr_get b i) -> a = b.
Proof.
  intros H. destruct a as [ea na], b as [eb nb]. f_equal.
  - apply map_eq. intros k. apply (H (JInt k)).
  - apply (H JNaN).
Qed.

Lemma fill0_lookup (n : nat) (k : Z) :
  fill0 n !! k = if decide (0 <= k < Z.of_nat n) then Some 0 else None.
Proof.
  induction n as [|n IH]; cbn [fill0].
  - rewrite lookup_empty. case_decide; [lia | done].
  - rewrite lookup_insert, IH, Nat2Z.inj_succ.
    destruct (decide (Z.of_nat n = k)), (decide (0 <= k < Z.of_nat n)),
      (decide (0 <= k < Z.succ (Z.of_nat n))); try done; lia.
Qed.

(** ** [_hash] depends on [size] only *)

Lemma _hash_size_only (f g : BloomFilter) (item : list Z) (seed : Z) :
  size f = size g -> _hash f item seed = _hash g item seed.
Proof. intros H. unfold _hash. by rewrite H. Qed.

Lemma _hash_bound (f : BloomFilter) (item : list Z) (seed : Z) :
  0 < size f -> exists i, _hash f item seed = JInt i /\ 0 <= i < size f.
Proof.
  intros Hs. unfold _hash, js_rem, js_abs. case_decide; [lia|].
  eexists; split; [reflexivity|].
  pose proof (Z.rem_bound_abs (js_xor (hash_loop 0 item) seed) (size f)).
  split; [lia|]. rewrite (Z.abs_eq (size f)) in H0 by lia. apply H0. lia.
Qed.

(** ** [add]: the loop and its effect on the array *)

Lemma add_loop_size (f : BloomFilter) (item : list Z) (is : list Z) :
  size (add_loop f item is) = size f /\ numHashes (add_loop f item is) = numHashes f.
Proof.
  revert f. induction is as [|i rest IH]; intros f; simpl; [done|].
  by rewrite !(proj1 (IH _)), (proj2 (IH _)).
Qed.

Lemma add_loop_get (f : BloomFilter) (item : list Z) (is : list Z) (j : jsnum) :
  arr_get (bitArray (add_loop f item is)) j =
  if decide (j ∈ map (_hash f item) is) then Some 1 else arr_get (bitArray f) j.
Proof.
  revert f. induction is as [|i rest IH]; intros f; cbn [add_loop map].
  - case_decide as Hin; [apply elem_of_nil in Hin; done | done].
  - rewrite IH. cbn [bitArray]. rewrite arr_get_set.
    change (map (_hash (mkBloomFilter (size f) (numHashes f)
              (arr_set (bitArray f) (_hash f item i) 1)) item) rest)
      with (map (_hash f item) rest).
    destruct (decide (j ∈ map (_hash f item) rest)),
      (decide (_hash f item i = j)),
      (decide (j ∈ _hash f item i :: map (_hash f item) rest));
      try done; rewrite elem_of_cons in *; naive_solver.
Qed.

Lemma step_add (f : BloomFilter) (item : list Z) :
  step (Add item) f = add_loop f item (seeds (numHashes f)).
Proof. reflexivity. Qed.

Lemma step_contains (f : BloomFilter) (item : list Z) :
  step (Contains item) f = f.
Proof. reflexivity. Qed.

(** Every call keeps [size] and [numHashes]. *)
Lemma step_size (c : call) (f : BloomFilter) :
  size (step c f) = size f /\ numHashes (step c f) = numHashes f.
Proof. destruct c; [apply add_loop_size | done]. Qed.

Lemma exec_size (cs : list call) (f : BloomFilter) :
  size (exec cs f) = size f /\ numHashes (exec cs f) = numHashes f.
Proof.
  revert f. induction cs as [|c rest IH]; intros f; simpl; [done|].
  rewrite (proj1 (IH _)), (proj2 (IH _)). apply step_size.
Qed.

Lemma exec_app (cs1 cs2 : list call) (f : BloomFilter) :
  exec (cs1 ++ cs2) f = exec cs2 (exec cs1 f).
Proof. revert f. induction cs1; intros f; simpl; auto. Qed.

(** Every slot a call leaves is either written with 1 or unchanged. *)
Lemma step_get (c : call) (f : BloomFilter) (j : jsnum) :
  arr_get (bitArray (step c f)) j = Some 1 \/
  arr_get (bitArray (step c f)) j = arr_get (bitArray f) j.
Proof.
  destruct c as [item|item]; [|by right].
  rewrite step_add, add_loop_get. case_decide; auto.
Qed.

Lemma exec_get_one (cs : list call) (f : BloomFilter) (j : jsnum) :
  arr_get (bitArray f) j = Some 1 -> arr_get (bitArray (exec cs f)) j = Some 1.
Proof.
  revert f. induction cs as [|c rest IH]; intros f H; simpl; [done|].
  apply IH. destruct (step_get c f j) as [E|E]; congruence.
Qed.

Lemma exec_elems_some (cs : list call) (f : BloomFilter) (k : Z) :
  is_Some (elems (bitArray f) !! k) -> is_Some (elems (bitArray (exec cs f)) !! k).
Proof.
  revert f. induction cs as [|c rest IH]; intros f H; simpl; [done|].
  apply IH. destruct (step_get c f (JInt k)) as [E|E]; simpl in E; rewrite E; done.
Qed.

(** ** [contains]: the loop *)

Lemma contains_loop_true (f : BloomFilter) (item : list Z) (is : list Z) :
  (forall i, i ∈ is -> arr_get (bitArray f) (_hash f item i) <> Some 0) ->
  contains_loop f item is = true.
Proof.
  induction is as [|i rest IH]; intros H; simpl; [done|].
  case_decide as E; [exfalso; apply (H i); [left | done]|].
  apply IH. intros i' Hi'. apply H. by right.
Qed.

Lemma contains_loop_false (f : BloomFilter) (item : list Z) (is : list Z) (i : Z) :
  i ∈ is -> arr_get (bitArray f) (_hash f item i) = Some 0 ->
  contains_loop f item is = false.
Proof.
  induction is as [|i' rest IH]; intros Hin H; simpl; [by apply elem_of_nil in Hin|].
  case_decide; [done|]. apply elem_of_cons in Hin as [->|Hin]; [done|]. by apply IH.
Qed.

Lemma seeds_zero (k : Z) : 1 <= k -> 0 ∈ seeds k.
Proof.
  intros Hk. unfold seeds. destruct (Z.to_nat k) eqn:E; [lia|].
  simpl. left.
Qed.

(** The fresh array: a 0 at every index of [0, size), nothing else. *)
Lemma construct_fresh (sz k : Z) (f : BloomFilter) :
  construct sz k = Ok f ->
  size f = sz /\ numHashes f = k /\ 0 <= sz /\
  (forall j, arr_get (bitArray f) j =
     match j with
     | JInt i => if decide (0 <= i < sz) then Some 0 else None
     | JNaN => None
     end).
Proof.
  unfold construct. case_decide as Hsz; [|done]. intros Hf. inversion Hf; subst.
  simpl. split; [done|]. split; [done|]. split; [lia|].
  intros [i|]; simpl; [|done]. rewrite fill0_lookup, Z2Nat.id by lia. done.
Qed.

(** The indices [add(x)] writes and [contains(x)] reads. *)
Definition indices (f : BloomFilter) (x : list Z) : list jsnum :=
  map (_hash f x) (seeds (numHashes f)).

Lemma add_get (f : BloomFilter) (x : list Z) (j : jsnum) :
  arr_get (bitArray (snd (add x f))) j =
  if decide (j ∈ indices f x) then Some 1 else arr_get (bitArray f) j.
Proof. apply add_loop_get. Qed.

Lemma indices_add (f : BloomFilter) (x y : list Z) :
  indices (snd (add y f)) x = indices f x.
Proof.
  unfold indices. simpl snd. destruct (add_loop_size f y (seeds (numHashes f))) as [Es En].
  rewrite En. apply map_ext. intros i. by apply _hash_size_only.
Qed.

Lemma filter_ext (f g : BloomFilter) :
  size f = size g -> numHashes f = numHashes g ->
  (forall j, arr_get (bitArray f) j = arr_get (bitArray g) j) -> f = g.
Proof.
  intros Hs Hn Ha. destruct f, g; simpl in *. subst. f_equal. by apply arr_ext.
Qed.

(** After [add(x)], whatever calls follow, [contains(x)] is [true]
    (for any filter object). *)
Lemma contains_after_add (f : BloomFilter) (pre post : list call) (x : list Z) :
  fst (contains x (exec (pre ++ Add x :: post) f)) = true.
Proof.
  rewrite exec_app. set (g := exec pre f). cbn [exec].
  set (h := exec post (step (Add x) g)).
  assert (Hsz : size h = size g /\ numHashes h = numHashes g).
  { unfold h. rewrite (proj1 (exec_size _ _)), (proj2 (exec_size _ _)). apply step_size. }
  unfold contains. cbn [fst]. rewrite (proj2 Hsz).
  apply contains_loop_true. intros i Hi.
  rewrite (_hash_size_only h g) by apply Hsz.
  unfold h. rewrite exec_get_one; [done|].
  rewrite step_add, add_loop_get. case_decide as Hin; [done|].
  exfalso. apply Hin. apply list_elem_of_In, in_map, list_elem_of_In. done.
Qed.

(** ** Claims *)

(** C1. No false negatives: on a filter constructed with positive [size]
    and [numHashes], after [add(x)] followed by any calls, [contains(x)]
    returns [true]. *)
Theorem no_false_negatives (sz k : Z) (f : BloomFilter) (pre post : list call) (x : list Z) :
  construct sz k = Ok f -> 0 < sz -> 0 < k ->
  fst (contains x (exec (pre ++ Add x :: post) f)) = true.
Proof. intros _ _ _. apply contains_after_add. Qed.

Lemma no_false_negatives_witness :
  construct 100 3 = Ok bf1 /\
  fst (contains apple (exec ([Add [98]] ++ Add apple :: [Contains [99]; Add [100]]) bf1)) = true.
Proof.
  split; [reflexivity|].
  apply (no_false_negatives 100 3); [reflexivity | lia | lia].
Defined.

(** C2. The code's update [(hash << 5) - hash + char] followed by
    [hash & hash] equals [hash * 31 + char] wrapped to 32-bit signed, for
    every accumulator; so the running hashes are equal on every string. *)
Theorem hash_loop_refines_ref :
  (forall hash char, hash_step hash char = ref_step hash char) /\
  (forall hash item, hash_loop hash item = ref_loop hash item).
Proof.
  split; [apply hash_step_ref_step|].
  intros hash item. revert hash. induction item as [|c rest IH]; intros hash; simpl; [done|].
  rewrite hash_step_ref_step. apply IH.
Qed.

(** C3. Index bound: on a filter with positive size (in any state reached by
    calls), [_hash(item, seed)] is an integer in [0, size) and the array has
    a slot at it. *)
Theorem hash_index_in_bounds (sz k : Z) (f : BloomFilter) (pre : list call)
    (item : list Z) (seed : Z) :
  construct sz k = Ok f -> 0 < sz ->
  exists i, _hash (exec pre f) item seed = JInt i /\ 0 <= i < size (exec pre f) /\
            is_Some (elems (bitArray (exec pre f)) !! i).
Proof.
  intros Hc Hsz. destruct (construct_fresh _ _ _ Hc) as (Hs & _ & _ & Hget).
  pose proof (proj1 (exec_size pre f)) as Es.
  destruct (_hash_bound (exec pre f) item seed) as (i & Hi & Hb); [lia|].
  exists i. split; [done|]. split; [done|].
  apply exec_elems_some. pose proof (Hget (JInt i)) as G. simpl in G.
  rewrite G. case_decide; [eauto | lia].
Qed.

Lemma hash_index_in_bounds_witness :
  construct 100 3 = Ok bf1 /\ 0 < 100 /\
  exists i, _hash (exec [Add apple] bf1) [120] 7 = JInt i /\ 0 <= i < size (exec [Add apple] bf1) /\
            is_Some (elems (bitArray (exec [Add apple] bf1)) !! i).
Proof.
  split; [reflexivity|]. split; [lia|].
  apply (hash_index_in_bounds 100 3); [reflexivity | lia].
Defined.

(** C4. Bits: in every state reached from construction every slot holds 0
    or 1; a slot holding 1 still holds 1 after the next call; a slot holding
    0 after a call held 0 before it (no call writes 0). *)
Theorem bits_monotone (sz k : Z) (f : BloomFilter) (pre : list call) (c : call) :
  construct sz k = Ok f ->
  (forall j v, arr_get (bitArray (exec pre f)) j = Some v -> v = 0 \/ v = 1) /\
  (forall j, arr_get (bitArray (exec pre f)) j = Some 1 ->
             arr_get (bitArray (step c (exec pre f))) j = Some 1) /\
  (forall j, arr_get (bitArray (step c (exec pre f))) j = Some 0 ->
             arr_get (bitArray (exec pre f)) j = Some 0).
Proof.
  intros Hc. destruct (construct_fresh _ _ _ Hc) as (_ & _ & _ & Hget).
  split; [|split].
  - assert (Inv : forall g, (forall j v, arr_get (bitArray g) j = Some v -> v = 0 \/ v = 1) ->
                  forall j v, arr_get (bitArray (exec pre g)) j = Some v -> v = 0 \/ v = 1).
    { induction pre as [|c' rest IH]; intros g Hg; simpl; [done|].
      apply IH. intros j v Hj. destruct (step_get c' g j) as [E|E]; rewrite E in Hj.
      - inversion Hj; auto.
      - by apply (Hg j). }
    apply Inv. intros j v Hj. rewrite Hget in Hj.
    destruct j as [i|]; [case_decide|]; inversion Hj; auto.
  - intros j Hj. apply (exec_get_one [c]). done.
  - intros j Hj. destruct (step_get c (exec pre f) j) as [E|E]; congruence.
Qed.

Lemma bits_monotone_witness :
  construct 100 3 = Ok bf1 /\
  arr_get (bitArray (step (Add [99]) (exec [Add apple] bf1))) (_hash bf1 apple 0) = Some 1.
Proof.
  split; [reflexivity|].
  apply (bits_monotone 100 3 bf1 [Add apple] (Add [99])); [reflexivity|].
  vm_compute. reflexivity.
Defined.

(** C5. Empty filter: on a fresh filter with positive size and at least one
    hash, [contains] returns [false] for every item. *)
Theorem empty_filter_contains_false (sz k : Z) (f : BloomFilter) (item : list Z) :
  construct sz k = Ok f -> 0 < sz -> 1 <= k -> fst (contains item f) = false.
Proof.
  intros Hc Hsz Hk. destruct (construct_fresh _ _ _ Hc) as (Hs & Hn & _ & Hget).
  unfold contains. simpl fst. apply (contains_loop_false _ _ _ 0).
  - rewrite Hn. by apply seeds_zero.
  - destruct (_hash_bound f item 0) as (i & Hi & Hb); [lia|].
    rewrite Hi, Hget. case_decide; [done | lia].
Qed.

Lemma empty_filter_contains_false_witness :
  construct 100 3 = Ok bf1 /\ fst (contains apple bf1) = false.
Proof.
  split; [reflexivity|].
  apply (empty_filter_contains_false 100 3); [reflexivity | lia | lia].
Defined.

(** C6 (as stated, refuted). A size of 0 is not rejected: the constructor
    returns a filter, whose bit array is empty and on which [contains]
    answers [true] before any [add] ([bitArray[NaN]] is [undefined]). *)
Lemma construct_zero_size_accepted :
  construct 0 1 = Ok (mkBloomFilter 0 1 (mkJsArray ∅ None)) /\
  fst (contains apple (mkBloomFilter 0 1 (mkJsArray ∅ None))) = true.
Proof. split; vm_compute; reflexivity. Qed.

(** C6 (amended). For a non-positive size, construction throws a
    RangeError when the size is negative and succeeds with an empty bit
    array when the size is 0. *)
Theorem construct_nonpositive_size (sz k : Z) :
  sz <= 0 ->
  construct sz k = if decide (sz = 0) then Ok (mkBloomFilter 0 k (mkJsArray ∅ None))
                   else Throw RangeError.
Proof.
  intros Hsz. unfold construct.
  destruct (decide (sz = 0)) as [->|Hne]; case_decide; try done; lia.
Qed.

Lemma construct_nonpositive_size_witness :
  (-1 <= 0 /\ construct (-1) 3 = Throw RangeError) /\
  (0 <= 0 /\ construct 0 3 = Ok (mkBloomFilter 0 3 (mkJsArray ∅ None))).
Proof.
  split; split; try lia.
  - apply (construct_nonpositive_size (-1) 3). lia.
  - apply (construct_nonpositive_size 0 3). lia.
Defined.

(** C7. Determinism: [_hash(item, seed)] depends only on [item], [seed] and
    [size]: two filters with the same size give the same index whatever
    their bit arrays. *)
Theorem hash_deterministic (f g : BloomFilter) (item : list Z) (seed : Z) :
  size f = size g -> _hash f item seed = _hash g item seed.
Proof. intros H. unfold _hash. by rewrite H. Qed.

Lemma hash_deterministic_witness :
  size bf1 = size (exec [Add apple; Add [1; 2]] bf1) /\
  _hash bf1 [7; 8] 2 = _hash (exec [Add apple; Add [1; 2]] bf1) [7; 8] 2.
Proof.
  split; [reflexivity|]. apply hash_deterministic. reflexivity.
Defined.

(** C8. Frame: [add(item)] keeps [size] and [numHashes] and changes no slot
    other than the indices derived from [item]; [contains(item)] leaves the
    whole object unchanged. *)
Theorem add_contains_frame (f : BloomFilter) (item : list Z) :
  size (snd (add item f)) = size f /\
  numHashes (snd (add item f)) = numHashes f /\
  (forall j, j ∉ indices f item ->
             arr_get (bitArray (snd (add item f))) j = arr_get (bitArray f) j) /\
  snd (contains item f) = f.
Proof.
  destruct (add_loop_size f item (seeds (numHashes f))) as [Es En].
  split; [done|]. split; [done|]. split; [|done].
  intros j Hj. rewrite add_get. by case_decide.
Qed.

(** C9. [add] is idempotent and two [add] calls commute. *)
Theorem add_idempotent_commutative (f : BloomFilter) (x y : list Z) :
  snd (add x (snd (add x f))) = snd (add x f) /\
  snd (add y (snd (add x f))) = snd (add x (snd (add y f))).
Proof.
  destruct (add_loop_size f x (seeds (numHashes f))) as [Esx Enx].
  destruct (add_loop_size f y (seeds (numHashes f))) as [Esy Eny].
  split; apply filter_ext.
  - apply add_loop_size.
  - apply add_loop_size.
  - intros j. rewrite !add_get, indices_add. by case_decide.
  - simpl snd. rewrite !(proj1 (add_loop_size _ _ _)); congruence.
  - simpl snd. rewrite !(proj2 (add_loop_size _ _ _)); congruence.
  - intros j. rewrite !add_get, !indices_add.
    destruct (decide (j ∈ indices f x)), (decide (j ∈ indices f y)); done.
Qed.

(** C10. With [numHashes = 0], [add] changes nothing and [contains] answers
    [true] for every item, also on a fresh filter. *)
Theorem zero_hashes_degenerate (f : BloomFilter) (item : list Z) :
  numHashes f = 0 -> add item f = (tt, f) /\ contains item f = (true, f).
Proof. intros H. unfold add, contains, seeds. rewrite H. done. Qed.

Lemma zero_hashes_degenerate_witness :
  construct 100 0 = Ok (mkBloomFilter 100 0 (mkJsArray (fill0 100) None)) /\
  add apple (mkBloomFilter 100 0 (mkJsArray (fill0 100) None)) =
    (tt, mkBloomFilter 100 0 (mkJsArray (fill0 100) None)) /\
  contains apple (mkBloomFilter 100 0 (mkJsArray (fill0 100) None)) =
    (true, mkBloomFilter 100 0 (mkJsArray (fill0 100) None)).
Proof.
  split; [reflexivity|]. apply zero_hashes_degenerate. reflexivity.
Defined.

(** ** Further properties of the class *)

Lemma indices_exec (cs : list call) (f : BloomFilter) (x : list Z) :
  indices (exec cs f) x = indices f x.
Proof.
  unfold indices. rewrite (proj2 (exec_size cs f)). apply map_ext. intros i.
  apply _hash_size_only, exec_size.
Qed.

(** The array after any calls: a slot holds 1 if it is an index of some
    added item, and is untouched otherwise. *)
Lemma exec_get (cs : list call) (f : BloomFilter) (j : jsnum) :
  arr_get (bitArray (exec cs f)) j =
  if decide (Exists (fun x => j ∈ indices f x) (added cs)) then Some 1
  else arr_get (bitArray f) j.
Proof.
  revert f. induction cs as [|c rest IH]; intros f; cbn [exec added].
  - case_decide as E; [inversion E | done].
  - destruct c as [x|x]; rewrite IH.
    + change (step (Add x) f) with (snd (add x f)). rewrite add_get.
      assert (Eq : Exists (fun y => j ∈ indices (snd (add x f)) y) (added rest) <->
                   Exists (fun y => j ∈ indices f y) (added rest)).
      { split; intros H; (eapply Exists_impl; [exact H|]); intros y; cbn beta;
          by rewrite indices_add. }
      destruct (decide (Exists (fun y => j ∈ indices (snd (add x f)) y) (added rest))),
        (decide (j ∈ indices f x)),
        (decide (Exists (fun y => j ∈ indices f y) (x :: added rest)));
        try done; rewrite Exists_cons in *; tauto.
    + done.
Qed.

Lemma contains_loop_true_inv (f : BloomFilter) (item : list Z) (is : list Z) :
  contains_loop f item is = true ->
  forall i, i ∈ is -> arr_get (bitArray f) (_hash f item i) <> Some 0.
Proof.
  induction is as [|i rest IH]; intros H i' Hi'; simpl in H.
  - by apply elem_of_nil in Hi'.
  - case_decide as E; [done|]. apply elem_of_cons in Hi' as [->|Hi']; [done|].
    by apply IH.
Qed.

(** [contains(x)] is [true] exactly when no index of [x] reads 0. *)
Lemma contains_iff (f : BloomFilter) (x : list Z) :
  fst (contains x f) = true <->
  forall j, j ∈ indices f x -> arr_get (bitArray f) j <> Some 0.
Proof.
  unfold contains, indices. cbn [fst]. split.
  - intros H j Hj. apply list_elem_of_In, in_map_iff in Hj as (i & <- & Hi).
    apply (contains_loop_true_inv _ _ _ H). by apply list_elem_of_In.
  - intros H. apply contains_loop_true. intros i Hi. apply H.
    apply list_elem_of_In, in_map, list_elem_of_In. done.
Qed.

Lemma indices_in_range (f : BloomFilter) (x : list Z) (j : jsnum) :
  0 < size f -> j ∈ indices f x -> exists i, j = JInt i /\ 0 <= i < size f.
Proof.
  intros Hs Hj. apply list_elem_of_In, in_map_iff in Hj as (s & <- & _).
  destruct (_hash_bound f x s Hs) as (i & -> & Hb). eauto.
Qed.

Lemma int32_div (z : Z) : - 2 ^ 31 <= z < 2 ^ 31 <-> z / 2 ^ 31 = 0 \/ z / 2 ^ 31 = -1.
Proof.
  pose proof (Z_div_mod_eq_full z (2 ^ 31)).
  pose proof (Z.mod_pos_bound z (2 ^ 31)). lia.
Qed.

Lemma js_xor_range (a b : Z) : - 2 ^ 31 <= js_xor a b < 2 ^ 31.
Proof.
  unfold js_xor. apply int32_div. rewrite <- !Z.shiftr_div_pow2 by lia.
  rewrite Z.shiftr_lxor, !Z.shiftr_div_pow2 by lia.
  pose proof (proj1 (int32_div _) (wrap32_range a)) as [-> | ->];
  pose proof (proj1 (int32_div _) (wrap32_range b)) as [-> | ->]; auto.
Qed.

Lemma js_xor_0_l (b : Z) : js_xor 0 b = wrap32 b.
Proof. reflexivity. Qed.

(** Extra. After any calls on a filter constructed with positive size,
    slot [i] of [0, size) holds 1 when [i] is an index of some added item
    and 0 otherwise. *)
Theorem exec_slot_contents (sz k : Z) (f : BloomFilter) (cs : list call) (i : Z) :
  construct sz k = Ok f -> 0 <= i < sz ->
  elems (bitArray (exec cs f)) !! i =
  Some (if decide (Exists (fun x => JInt i ∈ indices f x) (added cs)) then 1 else 0).
Proof.
  intros Hc Hi. destruct (construct_fresh _ _ _ Hc) as (_ & _ & _ & Hget).
  pose proof (exec_get cs f (JInt i)) as E. simpl in E. rewrite E.
  pose proof (Hget (JInt i)) as G. simpl in G. rewrite G.
  destruct (decide (Exists (fun x => JInt i ∈ indices f x) (added cs))); [done|].
  case_decide; [done | lia].
Qed.

Lemma exec_slot_contents_witness :
  construct 100 3 = Ok bf1 /\ 0 <= 5 < 100 /\
  elems (bitArray (exec [Add apple; Contains [1]] bf1)) !! 5 =
  Some (if decide (Exists (fun x => JInt 5 ∈ indices bf1 x) (added [Add apple; Contains [1]]))
        then 1 else 0).
Proof.
  split; [reflexivity|]. split; [lia|].
  apply (exec_slot_contents 100 3); [reflexivity | lia].
Defined.

(** Extra. Calls never create or remove slots: on a filter constructed
    with positive size, the array keeps exactly the keys [0, size) and never
    gets a "NaN" property. *)
Theorem exec_keeps_slots (sz k : Z) (f : BloomFilter) (cs : list call) :
  construct sz k = Ok f -> 0 < sz ->
  (forall i, is_Some (elems (bitArray (exec cs f)) !! i) <-> 0 <= i < sz) /\
  nan_prop (bitArray (exec cs f)) = None.
Proof.
  intros Hc Hsz. destruct (construct_fresh _ _ _ Hc) as (Hs & _ & _ & Hget).
  split.
  - intros i. pose proof (exec_get cs f (JInt i)) as E. simpl in E. rewrite E.
    pose proof (Hget (JInt i)) as G. simpl in G. rewrite G.
    destruct (decide (Exists (fun x => JInt i ∈ indices f x) (added cs))) as [Ex|Ex].
    + split; [intros _ | eauto].
      apply Exists_exists in Ex as (x & _ & Hx).
      destruct (indices_in_range f x _ ltac:(lia) Hx) as (i' & Ei & Hb).
      inversion Ei; subst. lia.
    + destruct (decide (0 <= i < sz)) as [Hr|Hr]; split; intros Hs'; done.
  - pose proof (exec_get cs f JNaN) as E. simpl in E. rewrite E.
    pose proof (Hget JNaN) as G. simpl in G. rewrite G.
    case_decide as Ex; [|done]. exfalso.
    apply Exists_exists in Ex as (x & _ & Hx).
    destruct (indices_in_range f x _ ltac:(lia) Hx) as (i' & Ei & _). done.
Qed.

Lemma exec_keeps_slots_witness :
  construct 10 4 = Ok (mkBloomFilter 10 4 (mkJsArray (fill0 10) None)) /\ 0 < 10 /\
  nan_prop (bitArray (exec [Add apple; Add [120]]
                        (mkBloomFilter 10 4 (mkJsArray (fill0 10) None)))) = None.
Proof.
  split; [reflexivity|]. split; [lia|].
  apply (exec_keeps_slots 10 4); [reflexivity | lia].
Defined.

(** Extra. Exact answers: after any calls on a filter constructed with
    positive size, [contains(y)] is [true] exactly when every index of [y]
    is an index of some added item. *)
Theorem contains_exact (sz k : Z) (f : BloomFilter) (cs : list call) (y : list Z) :
  construct sz k = Ok f -> 0 < sz ->
  fst (contains y (exec cs f)) = true <->
  forall j, j ∈ indices f y -> Exists (fun x => j ∈ indices f x) (added cs).
Proof.
  intros Hc Hsz. destruct (construct_fresh _ _ _ Hc) as (Hs & _ & _ & Hget).
  rewrite contains_iff, indices_exec. split.
  - intros H j Hj. specialize (H j Hj). rewrite exec_get in H.
    case_decide as Ex; [done|]. exfalso. apply H.
    destruct (indices_in_range f y j ltac:(lia) Hj) as (i & -> & Hb).
    rewrite Hget. case_decide; [done | lia].
  - intros H j Hj. rewrite exec_get. case_decide; [done|]. by specialize (H j Hj).
Qed.

Lemma contains_exact_witness :
  construct 100 3 = Ok bf1 /\ 0 < 100 /\
  (fst (contains apple (exec [Add apple] bf1)) = true <->
   forall j, j ∈ indices bf1 apple -> Exists (fun x => j ∈ indices bf1 x) (added [Add apple])).
Proof.
  split; [reflexivity|]. split; [lia|].
  apply (contains_exact 100 3); [reflexivity | lia].
Defined.

(** Extra. Once [contains(x)] answers [true], it answers [true] after any
    further calls. *)
Theorem contains_stays_true (g : BloomFilter) (cs : list call) (x : list Z) :
  fst (contains x g) = true -> fst (contains x (exec cs g)) = true.
Proof.
  rewrite !contains_iff, indices_exec. intros H j Hj.
  rewrite exec_get. case_decide; [done|]. by apply H.
Qed.

Lemma contains_stays_true_witness :
  fst (contains apple (snd (add apple bf1))) = true /\
  fst (contains apple (exec [Add [1]; Contains [2]] (snd (add apple bf1)))) = true.
Proof.
  split; [vm_compute; reflexivity|].
  apply contains_stays_true. vm_compute. reflexivity.
Defined.

(** Extra. The state after a sequence of calls depends only on which items
    were added: order, repetitions and [contains] calls do not matter. *)
Theorem exec_order_independent (f : BloomFilter) (cs1 cs2 : list call) :
  (forall x, x ∈ added cs1 <-> x ∈ added cs2) -> exec cs1 f = exec cs2 f.
Proof.
  intros H. apply filter_ext.
  - by rewrite !(proj1 (exec_size _ _)).
  - by rewrite !(proj2 (exec_size _ _)).
  - intros j. rewrite !exec_get.
    assert (E : Exists (fun x => j ∈ indices f x) (added cs1) <->
                Exists (fun x => j ∈ indices f x) (added cs2)).
    { rewrite !Exists_exists. split; intros (x & Hx & Hj); exists x; split; auto;
        by apply H. }
    destruct (decide (Exists (fun x => j ∈ indices f x) (added cs1))),
      (decide (Exists (fun x => j ∈ indices f x) (added cs2))); tauto.
Qed.

Lemma exec_order_independent_witness :
  (forall x, x ∈ added [Add apple; Contains [1]; Add [2]] <-> x ∈ added [Add [2]; Add apple; Add [2]]) /\
  exec [Add apple; Contains [1]; Add [2]] bf1 = exec [Add [2]; Add apple; Add [2]] bf1.
Proof.
  assert (H : forall x, x ∈ added [Add apple; Contains [1]; Add [2]] <->
                        x ∈ added [Add [2]; Add apple; Add [2]]).
  { intros x. simpl. rewrite !elem_of_cons, elem_of_nil. tauto. }
  split; [exact H|]. apply exec_order_independent. exact H.
Defined.

Lemma _hash_size_zero (f : BloomFilter) (item : list Z) (seed : Z) :
  size f = 0 -> _hash f item seed = JNaN.
Proof. intros H. unfold _hash, js_rem. rewrite H. done. Qed.

Lemma contains_loop_same_hash (f : BloomFilter) (x y : list Z) (is : list Z) :
  (forall i, _hash f x i = _hash f y i) -> contains_loop f x is = contains_loop f y is.
Proof.
  intros H. induction is as [|i rest IH]; simpl; [done|]. by rewrite H, IH.
Qed.

(** Extra. A filter constructed with size 0 answers [true] to every
    [contains], whatever calls came before: every index is [NaN], and
    [bitArray[NaN]] is [undefined] or 1, never 0. *)
Theorem size_zero_contains_true (k : Z) (f : BloomFilter) (cs : list call) (y : list Z) :
  construct 0 k = Ok f -> fst (contains y (exec cs f)) = true.
Proof.
  intros Hc. destruct (construct_fresh _ _ _ Hc) as (Hs & _ & _ & Hget).
  rewrite contains_iff, indices_exec. intros j Hj.
  apply list_elem_of_In, in_map_iff in Hj as (s & <- & _).
  rewrite _hash_size_zero by done. rewrite exec_get, Hget. by case_decide.
Qed.

Lemma size_zero_contains_true_witness :
  construct 0 2 = Ok (mkBloomFilter 0 2 (mkJsArray ∅ None)) /\
  fst (contains apple (exec [Add [1]] (mkBloomFilter 0 2 (mkJsArray ∅ None)))) = true.
Proof.
  split; [reflexivity|]. apply (size_zero_contains_true 2). reflexivity.
Defined.

(** Extra. Two strings with the same 32-bit running hash cannot be told
    apart: once one of them is added, [contains] answers [true] for the
    other, whatever calls follow. *)
Theorem same_hash_false_positive (f : BloomFilter) (pre post : list call) (x y : list Z) :
  hash_loop 0 x = hash_loop 0 y ->
  fst (contains y (exec (pre ++ Add x :: post) f)) = true.
Proof.
  intros H. rewrite <- (contains_after_add f pre post x). unfold contains. cbn [fst].
  symmetry. apply contains_loop_same_hash. intros i. unfold _hash. by rewrite H.
Qed.

(** "Aa" and "BB" both hash to 2112. *)
Lemma same_hash_false_positive_witness :
  hash_loop 0 [65; 97] = hash_loop 0 [66; 66] /\
  fst (contains [66; 66] (exec ([] ++ Add [65; 97] :: []) bf1)) = true /\
  fst (contains [66; 66] bf1) = false.
Proof.
  split; [reflexivity|]. split; [|vm_compute; reflexivity].
  apply same_hash_false_positive. reflexivity.
Defined.

(** Extra. Every integer index [_hash] produces lies in [0, 2^31], whatever
    the size: with a size above [2^31 + 1] the slots past [2^31] are never
    used. *)
Theorem hash_index_at_most_2_31 (f : BloomFilter) (item : list Z) (seed i : Z) :
  _hash f item seed = JInt i -> 0 <= i <= 2 ^ 31.
Proof.
  unfold _hash, js_rem, js_abs. case_decide as Hs; [done|]. intros E. inversion E; subst.
  set (a := js_xor (hash_loop 0 item) seed). pose proof (js_xor_range (hash_loop 0 item) seed).
  rewrite <- Z.rem_abs by done.
  pose proof (Z.rem_le (Z.abs a) (Z.abs (size f)) ltac:(lia) ltac:(lia)).
  pose proof (Z.rem_nonneg (Z.abs a) (Z.abs (size f)) ltac:(lia) ltac:(lia)).
  unfold a in *. lia.
Qed.

Lemma hash_index_at_most_2_31_witness :
  _hash (mkBloomFilter (2 ^ 32 - 1) 1 (mkJsArray ∅ None)) apple 0 = JInt 93029210 /\
  0 <= 93029210 <= 2 ^ 31.
Proof.
  split; [vm_compute; reflexivity|].
  apply (hash_index_at_most_2_31 (mkBloomFilter (2 ^ 32 - 1) 1 (mkJsArray ∅ None)) apple 0).
  vm_compute. reflexivity.
Defined.

(** Extra. The empty string: when [numHashes] is at most [size] (and at most
    [2^31]), its indices are the seeds themselves, [0 .. numHashes-1]. *)
Theorem empty_string_indices (f : BloomFilter) :
  0 <= numHashes f <= size f -> numHashes f <= 2 ^ 31 ->
  indices f [] = map JInt (seeds (numHashes f)).
Proof.
  intros Hk H31. unfold indices, seeds. rewrite !map_map. apply map_ext_in.
  intros n Hn. apply in_seq in Hn.
  assert (Hn' : 0 <= Z.of_nat n < numHashes f) by lia.
  unfold _hash, js_rem, js_abs. cbn [hash_loop]. rewrite js_xor_0_l.
  assert (Ew : wrap32 (Z.of_nat n) = Z.of_nat n).
  { unfold wrap32. rewrite Z.mod_small by lia. lia. }
  rewrite Ew. case_decide; [lia|]. rewrite Z.rem_small by lia. f_equal. lia.
Qed.

Lemma empty_string_indices_witness :
  (0 <= numHashes bf1 <= size bf1 /\ numHashes bf1 <= 2 ^ 31) /\
  indices bf1 [] = map JInt (seeds (numHashes bf1)).
Proof.
  split; [vm_compute; split; [split|]; discriminate|].
  apply empty_string_indices; vm_compute; [split|]; discriminate.
Defined.

(** Extra. A non-positive [numHashes] makes both loops empty: [add] leaves
    the filter unchanged and [contains] answers [true]. *)
Theorem nonpositive_hashes_degenerate (f : BloomFilter) (item : list Z) :
  numHashes f <= 0 -> add item f = (tt, f) /\ contains item f = (true, f).
Proof.
  intros H. unfold add, contains, seeds.
  replace (Z.to_nat (numHashes f)) with 0%nat by lia. done.
Qed.

Lemma nonpositive_hashes_degenerate_witness :
  numHashes (mkBloomFilter 10 (-2) (mkJsArray (fill0 10) None)) <= 0 /\
  contains apple (mkBloomFilter 10 (-2) (mkJsArray (fill0 10) None)) =
    (true, mkBloomFilter 10 (-2) (mkJsArray (fill0 10) None)).
Proof.
  split; [simpl; lia|]. apply nonpositive_hashes_degenerate. simpl. lia.
Defined.
